(** * user_profile_manager.py: validated descriptors and the weak profile cache

    A shallow embedding of [src/user_profile_manager.py].  Python values are
    a small tagged union, a raised exception is the [Raise] branch of
    [result], the two [weakref] dictionaries are finite maps together with
    the removal the interpreter performs when a referent is reclaimed. *)

From stdpp Require Import gmap strings list fin_maps.
From Stdlib Require Import ZArith String Ascii.

(** ** Python values *)

(** An object of class [UserProfileManager].  [address] is what [id(obj)]
    returns; an address may be handed out again once its object has been
    reclaimed, so [serial] (the allocation number) tells apart two objects
    that lived at the same address at different times. *)
Record instance := Instance { serial : positive; address : Z }.

#[global] Instance instance_eq_dec : EqDecision instance.
Proof. solve_decision. Defined.

#[global] Instance instance_countable : Countable instance.
Proof.
  apply (inj_countable' (fun o => (serial o, address o))
                        (fun p => Instance (fst p) (snd p))).
  by intros [].
Defined.

(** [id(obj)] *)
Definition id (o : instance) : Z := address o.

(** A [tzinfo] object: an instance of a subclass of [datetime.tzinfo].
    Such a class is written by client code and its instances can carry
    attributes of their own, so a [tzinfo] can refer to profile objects. *)
Record tzinfo_object := Tzinfo {
  utcoffset : Z;                     (* minutes east of UTC *)
  tz_attributes : list instance      (* the objects its attributes refer to *)
}.

(** An object of exact type [datetime]; [tzinfo] is [None] for a naive
    one. *)
Record datetime := Datetime {
  year : Z; month : Z; day : Z;
  hour : Z; minute : Z; second : Z; microsecond : Z;
  tzinfo : option tzinfo_object
}.

(** The values client code can pass around.  [str] and [datetime] stand
    for the built-in classes themselves, not for subclasses of them. *)
#[warnings="-register-all"] Inductive value :=
| VNone
| VBool (b : bool)
| VInt (n : Z)
| VStr (s : string)
| VBytes (b : list Byte.byte)
| VDatetime (t : datetime)
| VList (l : list value)
| VObj (o : instance).

(** [isinstance(value, str)] and [isinstance(value, datetime)] *)
Definition isinstance_str (v : value) : bool :=
  match v with VStr _ => true | _ => false end.

Definition isinstance_datetime (v : value) : bool :=
  match v with VDatetime _ => true | _ => false end.

(** ** Exceptions *)

(** The validators raise the built-in [ValueError]; it is the only error
    kind of the module, the one its specification calls ValidationError.
    [AttributeError] is what reading [self.name] would raise on a
    descriptor that was never bound to a name. *)
Inductive exn :=
| ValueError (msg : string)
| AttributeError (msg : string).

Inductive result (A : Type) :=
| Ok (a : A)
| Raise (e : exn).
Arguments Ok {A} a.
Arguments Raise {A} e.

(** Sequencing of statements that may raise: the first exception ends
    the block. *)
#[global] Instance result_bind : MBind result := fun A B k r =>
  match r with
  | Ok a => k a
  | Raise e => Raise e
  end.

(** ** The validators *)

(** [c in value] for a one-character [c].  Strings are sequences of UTF-8
    octets here; ['@'] and ['.'] are ASCII, so searching octets and
    searching code points agree. *)
Fixpoint contains (c : ascii) (s : string) : bool :=
  match s with
  | EmptyString => false
  | String a s' => if Ascii.eqb a c then true else contains c s'
  end.

(** Truth value of an object, as [not value] tests it. *)
Definition truthy (v : value) : bool :=
  match v with
  | VNone => false
  | VBool b => b
  | VInt n => negb (n =? 0)%Z
  | VStr s => match s with EmptyString => false | _ => true end
  | VBytes b => match b with [] => false | _ => true end
  | VDatetime _ => true
  | VList l => match l with [] => false | _ => true end
  | VObj _ => true
  end.

(** [value is None] *)
Definition is_None (v : value) : bool :=
  match v with VNone => true | _ => false end.

Definition validate_username (v : value) (name : string) : result unit :=
  if negb (isinstance_str v) || negb (truthy v)
  then Raise (ValueError (name +:+ " must be a non-empty string"))
  else Ok tt.

Definition validate_email (v : value) (name : string) : result unit :=
  match v with
  | VStr s =>
      if negb (contains "@" s) || negb (contains "." s)
      then Raise (ValueError (name +:+ " must contain '@' and '.'"))
      else Ok tt
  | _ => Raise (ValueError (name +:+ " must be a string"))
  end.

Definition validate_last_login (v : value) (name : string) : result unit :=
  if negb (is_None v) && negb (isinstance_datetime v)
  then Raise (ValueError (name +:+ " must be a datetime object or None"))
  else Ok tt.

(** ** The descriptor *)

Record ValidatedProperty := {
  validator : option (value -> string -> result unit);
  values : gmap instance value;      (* WeakKeyDictionary *)
  name : option string               (* unbound until __set_name__ *)
}.

Definition __init__ (validator : option (value -> string -> result unit))
  : ValidatedProperty :=
  {| validator := validator; values := ∅; name := None |}.

Definition __set_name__ (self : ValidatedProperty) (n : string)
  : ValidatedProperty :=
  {| validator := validator self; values := values self; name := Some n |}.

(** [self.name], which raises when [__set_name__] never ran. *)
Definition get_name (self : ValidatedProperty) : result string :=
  match name self with
  | Some n => Ok n
  | None =>
      Raise (AttributeError
               "'ValidatedProperty' object has no attribute 'name'")
  end.

(** ** The class *)

(** The class object [UserProfileManager]: its class attributes. *)
Record UserProfileManager := {
  _cache : gmap Z instance;          (* WeakValueDictionary *)
  default_last_login : value;
  username : ValidatedProperty;
  email : ValidatedProperty;
  last_login : ValidatedProperty
}.

(** What [__get__] hands back: the descriptor itself on class access, a
    value on instance access. *)
Inductive got :=
| GotDescriptor (d : ValidatedProperty)
| GotValue (v : value).

(** [self.values.get(instance)] *)
Definition values_get (self : ValidatedProperty) (i : instance) : value :=
  match values self !! i with
  | Some v => v
  | None => VNone
  end.

(** [instance not in self.values] *)
Definition not_in_values (self : ValidatedProperty) (i : instance) : bool :=
  match values self !! i with
  | Some _ => false
  | None => true
  end.

(** [owner_class] is the class [UserProfileManager], the one owner these
    descriptors have; it declares [default_last_login], so looking the
    attribute up on it cannot fail. *)
Definition __get__ (self : ValidatedProperty) (inst : option instance)
    (owner_class : UserProfileManager) : result got :=
  match inst with
  | None => Ok (GotDescriptor self)
  | Some i =>
      n ← get_name self;
      if String.eqb n "last_login" && not_in_values self i
      then Ok (GotValue (default_last_login owner_class))
      else Ok (GotValue (values_get self i))
  end.

(** [__set__] mutates [self.values]; the descriptor after the call is the
    second component, also when the call raised. *)
Definition __set__ (self : ValidatedProperty) (i : instance) (v : value)
  : result unit * ValidatedProperty :=
  let checked :=
    match validator self with
    | Some f => n ← get_name self; f v n
    | None => Ok tt
    end in
  match checked with
  | Raise e => (Raise e, self)
  | Ok _ =>
      (Ok tt,
       {| validator := validator self;
          values := <[i := v]> (values self);
          name := name self |})
  end.

(** The class body, executed once: three descriptors are created and
    bound to their attribute names, the cache starts empty and the default
    is [None]. *)
Definition class_body : UserProfileManager :=
  {| _cache := ∅;
     default_last_login := VNone;
     username := __set_name__ (__init__ (Some validate_username)) "username";
     email := __set_name__ (__init__ (Some validate_email)) "email";
     last_login :=
       __set_name__ (__init__ (Some validate_last_login)) "last_login" |}.

Inductive field := Username | Email | LastLogin.

Definition descriptor (f : field) (cls : UserProfileManager)
  : ValidatedProperty :=
  match f with
  | Username => username cls
  | Email => email cls
  | LastLogin => last_login cls
  end.

Definition with_descriptor (f : field) (d : ValidatedProperty)
    (cls : UserProfileManager) : UserProfileManager :=
  match f with
  | Username =>
      {| _cache := _cache cls; default_last_login := default_last_login cls;
         username := d; email := email cls; last_login := last_login cls |}
  | Email =>
      {| _cache := _cache cls; default_last_login := default_last_login cls;
         username := username cls; email := d; last_login := last_login cls |}
  | LastLogin =>
      {| _cache := _cache cls; default_last_login := default_last_login cls;
         username := username cls; email := email cls; last_login := d |}
  end.

(** [obj.f]: attribute lookup finds the data descriptor on the class and
    calls its [__get__] with the object and its class. *)
Definition getattr (cls : UserProfileManager) (o : instance) (f : field)
  : result got :=
  __get__ (descriptor f cls) (Some o) cls.

(** [obj.f = v] *)
Definition setattr (cls : UserProfileManager) (o : instance) (f : field)
    (v : value) : result unit * UserProfileManager :=
  let (r, d) := __set__ (descriptor f cls) o v in
  (r, with_descriptor f d cls).

(** [UserProfileManager.default_last_login = v] *)
Definition set_default_last_login (v : value) (cls : UserProfileManager)
  : UserProfileManager :=
  {| _cache := _cache cls; default_last_login := v;
     username := username cls; email := email cls;
     last_login := last_login cls |}.

Definition add_to_cache (cls : UserProfileManager) (o : instance)
  : UserProfileManager :=
  {| _cache := <[id o := o]> (_cache cls);
     default_last_login := default_last_login cls;
     username := username cls; email := email cls;
     last_login := last_login cls |}.

(** [cls._cache.get(instance_id)] *)
Definition get_from_cache (cls : UserProfileManager) (instance_id : Z)
  : value :=
  match _cache cls !! instance_id with
  | Some o => VObj o
  | None => VNone
  end.

(** ** Object lifetime

    The module keeps its objects in [weakref] dictionaries, so what a
    lookup returns depends on which objects the interpreter has reclaimed.
    The interpreter's side is modelled by the set of live objects and by the
    removal of weak entries that [weakref] performs when a referent dies. *)

Record runtime := {
  heap : gset instance;              (* the objects that are alive *)
  klass : UserProfileManager
}.

Definition boot : runtime := {| heap := ∅; klass := class_body |}.

(** The objects a value refers to: directly, through a list, or through
    the [tzinfo] of a [datetime]. *)
Fixpoint referents (v : value) : list instance :=
  match v with
  | VObj o => [o]
  | VList l => flat_map referents l
  | VDatetime t =>
      match tzinfo t with
      | Some z => tz_attributes z
      | None => []
      end
  | _ => []
  end.

Definition refers_to (v : value) (o : instance) : bool :=
  bool_decide (o ∈ referents v).

(** Strong references.  A [WeakKeyDictionary] keeps its values alive and
    not its keys, so a field store holds every object that one of its
    stored values refers to; a [WeakValueDictionary] whose keys are
    integers keeps nothing alive; a plain class attribute keeps its value
    alive. *)
Definition store_holds (d : ValidatedProperty) (o : instance) : bool :=
  existsb (fun kv => refers_to kv.2 o) (map_to_list (values d)).

Definition class_holds (cls : UserProfileManager) (o : instance) : bool :=
  store_holds (username cls) o || store_holds (email cls) o
  || store_holds (last_login cls) o
  || refers_to (default_last_login cls) o.

(** What [weakref] does to each dictionary when [o] is reclaimed. *)
Definition purge_key (o : instance) (d : ValidatedProperty)
  : ValidatedProperty :=
  {| validator := validator d;
     values := delete o (values d);
     name := name d |}.

Definition purge_value (o : instance) (m : gmap Z instance)
  : gmap Z instance :=
  filter (fun kv => kv.2 ≠ o) m.

Definition reclaim (o : instance) (cls : UserProfileManager)
  : UserProfileManager :=
  {| _cache := purge_value o (_cache cls);
     default_last_login := default_last_login cls;
     username := purge_key o (username cls);
     email := purge_key o (email cls);
     last_login := purge_key o (last_login cls) |}.

(** What client code and the interpreter can do to the module's state.
    Reads are not listed: they change nothing. *)
Inductive event :=
| New (o : instance)                               (* o = UserProfileManager() *)
| SetAttr (o : instance) (f : field) (v : value)   (* o.f = v, caught or not *)
| SetDefault (v : value)         (* UserProfileManager.default_last_login = v *)
| AddToCache (o : instance)      (* UserProfileManager.add_to_cache(o) *)
| Reclaim (o : instance).        (* the last reference to o is dropped *)

(** A new object gets an address no live object has. *)
Definition fresh (o : instance) (h : gset instance) : bool :=
  bool_decide (set_Forall (fun o' => id o' ≠ id o) h).

(** Client code can only pass references to live objects. *)
Definition value_live (v : value) (h : gset instance) : bool :=
  forallb (fun o => bool_decide (o ∈ h)) (referents v).

(** One event; [None] when the event cannot happen in that state. *)
Definition step (ev : event) (rt : runtime) : option runtime :=
  match ev with
  | New o =>
      if fresh o (heap rt)
      then Some {| heap := {[o]} ∪ heap rt; klass := klass rt |}
      else None
  | SetAttr o f v =>
      if bool_decide (o ∈ heap rt) && value_live v (heap rt)
      then Some {| heap := heap rt; klass := (setattr (klass rt) o f v).2 |}
      else None
  | SetDefault v =>
      if value_live v (heap rt)
      then Some {| heap := heap rt;
                   klass := set_default_last_login v (klass rt) |}
      else None
  | AddToCache o =>
      if bool_decide (o ∈ heap rt)
      then Some {| heap := heap rt; klass := add_to_cache (klass rt) o |}
      else None
  | Reclaim o =>
      if bool_decide (o ∈ heap rt) && negb (class_holds (klass rt) o)
      then Some {| heap := heap rt ∖ {[o]}; klass := reclaim o (klass rt) |}
      else None
  end.

Fixpoint run (evs : list event) (rt : runtime) : option runtime :=
  match evs with
  | [] => Some rt
  | ev :: evs' =>
      match step ev rt with
      | Some rt' => run evs' rt'
      | None => None
      end
  end.

(** The states the module can be in. *)
Definition reachable (rt : runtime) : Prop :=
  exists evs, run evs boot = Some rt.

(** ** Which validator and name each field is wired to *)

#[global] Instance field_eq_dec : EqDecision field.
Proof. solve_decision. Defined.

Definition field_name (f : field) : string :=
  match f with
  | Username => "username"
  | Email => "email"
  | LastLogin => "last_login"
  end.

Definition field_validator (f : field) : value -> string -> result unit :=
  match f with
  | Username => validate_username
  | Email => validate_email
  | LastLogin => validate_last_login
  end.

(** The three descriptors are as the class body left them. *)
Definition wired (cls : UserProfileManager) : Prop :=
  forall f, validator (descriptor f cls) = Some (field_validator f)
            /\ name (descriptor f cls) = Some (field_name f).

(** What holds in every state the module can reach. *)
Record inv (rt : runtime) : Prop := {
  inv_wired : wired (klass rt);
  inv_ids : forall o o',
      o ∈ heap rt -> o' ∈ heap rt -> id o = id o' -> o = o';
  inv_cache : forall k o,
      _cache (klass rt) !! k = Some o -> id o = k /\ o ∈ heap rt;
  inv_store : forall f o v,
      values (descriptor f (klass rt)) !! o = Some v ->
      o ∈ heap rt /\ field_validator f v (field_name f) = Ok tt
}.

(** ** What the claims are stated with *)

(** [c in s], as a statement about the characters of [s]. *)
Definition has_char (c : ascii) (s : string) : Prop :=
  In c (list_ascii_of_string s).

(** The values each field is meant to take, in the words of the
    specification: non-empty text, text with both ['@'] and ['.'], a
    timestamp or nothing. *)
Definition acceptable (f : field) (v : value) : Prop :=
  match f with
  | Username => exists s, v = VStr s /\ s <> EmptyString
  | Email => exists s, v = VStr s /\ has_char "@" s /\ has_char "." s
  | LastLogin => v = VNone \/ exists t, v = VDatetime t
  end.

(** An accepted write of [o.f] is among the events. *)
Definition writes (o : instance) (f : field) (ev : event) : Prop :=
  exists v, ev = SetAttr o f v /\ field_validator f v (field_name f) = Ok tt.

(** The cache entry for [k] as the history of events determines it: the
    object most recently added under [k], unless it was reclaimed since. *)
Definition latest_step (k : Z) (cur : option instance) (ev : event)
  : option instance :=
  match ev with
  | AddToCache o => if decide (id o = k) then Some o else cur
  | Reclaim o => if decide (cur = Some o) then None else cur
  | _ => cur
  end.

Definition latest (k : Z) (evs : list event) : option instance :=
  fold_left (latest_step k) evs None.

Definition optional (r : option instance) : value :=
  match r with
  | Some o => VObj o
  | None => VNone
  end.

(** The two shapes of message the claim on messages speaks of. *)
Definition must_message (n msg : string) : Prop :=
  exists rest, msg = n +:+ " must " +:+ rest.

Definition must_be_message (n msg : string) : Prop :=
  exists rest, msg = n +:+ " must be " +:+ rest.

(** The descriptor after an accepted write. *)
Definition stored (d : ValidatedProperty) (o : instance) (v : value)
  : ValidatedProperty :=
  {| validator := validator d; values := <[o := v]> (values d);
     name := name d |}.

(** ** A sample history, for concrete instances of the theorems *)

Definition alice : instance := Instance 1 4096.
Definition bob : instance := Instance 2 8192.

Definition demo : list event :=
  [New alice; SetAttr alice Username (VStr "alice");
   SetAttr alice Email (VStr "a@example.com"); AddToCache alice;
   New bob; AddToCache bob; SetAttr bob LastLogin VNone].


Definition noon : datetime := Datetime 2024 5 17 12 0 0 0 None.




Definition demo_rt : runtime := default boot (run demo boot).

Definition shadow_rt : runtime :=
  default boot
    (run [SetAttr alice LastLogin VNone; SetDefault (VDatetime noon)]
         demo_rt).

Definition carol : instance := Instance 3 4096.

(** [alice] is cached and reclaimed, then [carol] is created at the
    address [alice] had and cached. *)
Definition reuse : list event :=
  [New alice; AddToCache alice; New bob; AddToCache bob; Reclaim alice;
   New carol; AddToCache carol].

Definition reuse_rt : runtime := default boot (run reuse boot).

(** [alice] is created and the default is set before she ever logs in. *)
Definition newcomer : list event :=
  [New alice; SetDefault (VDatetime noon)].

Definition newcomer_rt : runtime := default boot (run newcomer boot).

(** [alice] is written, cached and reclaimed while [bob] lives on; then
    [carol] is created at the address [alice] had. *)
Definition departed : list event :=
  [New alice; SetAttr alice Username (VStr "alice"); AddToCache alice;
   New bob; AddToCache bob; Reclaim alice].

Definition departed_rt : runtime := default boot (run departed boot).

Definition returned_rt : runtime :=
  default departed_rt (step (New carol) departed_rt).


(** The sample history, then [bob] gets an email address and other things
    happen. *)
Definition busy : list event :=
  [SetDefault (VDatetime noon); AddToCache alice;
   SetAttr alice Email (VStr "alice@example.org");
   SetAttr bob Email (VStr "not an address")].

Definition busy_rt : runtime :=
  default demo_rt
    (run (SetAttr bob Email (VStr "b@example.com") :: busy) demo_rt).

(** The sample history, then [alice] changes her name and other things
    happen. *)
Definition renamed : list event :=
  [SetAttr alice Username (VStr "alicia"); SetAttr alice Username VNone;
   SetDefault VNone; Reclaim bob].

Definition renamed_rt : runtime := default demo_rt (run renamed demo_rt).

(** * Proofs *)

Section Descriptor.

Lemma descriptor_with_same f d cls :
  descriptor f (with_descriptor f d cls) = d.
Proof. by destruct f. Qed.

Lemma descriptor_with_other f g d cls :
  f <> g -> descriptor g (with_descriptor f d cls) = descriptor g cls.
Proof. by destruct f, g. Qed.

Lemma with_descriptor_same f cls :
  with_descriptor f (descriptor f cls) cls = cls.
Proof. by destruct f, cls. Qed.

Lemma cache_with_descriptor f d cls :
  _cache (with_descriptor f d cls) = _cache cls.
Proof. by destruct f. Qed.

Lemma set_wired cls o f v :
  wired cls ->
  __set__ (descriptor f cls) o v =
    match field_validator f v (field_name f) with
    | Ok _ => (Ok tt, stored (descriptor f cls) o v)
    | Raise e => (Raise e, descriptor f cls)
    end.
Proof.
  intros Hw. destruct (Hw f) as [Hv Hn].
  unfold __set__, get_name, stored. rewrite Hv, Hn. simpl.
  by destruct (field_validator f v (field_name f)).
Qed.

Lemma setattr_wired cls o f v :
  wired cls ->
  setattr cls o f v =
    match field_validator f v (field_name f) with
    | Ok _ => (Ok tt, with_descriptor f (stored (descriptor f cls) o v) cls)
    | Raise e => (Raise e, cls)
    end.
Proof.
  intros Hw. unfold setattr. rewrite set_wired by done.
  destruct (field_validator f v (field_name f)); [done|].
  by rewrite with_descriptor_same.
Qed.

Lemma getattr_wired cls o f :
  wired cls ->
  getattr cls o f =
    Ok (GotValue
          (match values (descriptor f cls) !! o with
           | Some v => v
           | None =>
               match f with
               | LastLogin => default_last_login cls
               | _ => VNone
               end
           end)).
Proof.
  intros Hw. destruct (Hw f) as [_ Hn].
  unfold getattr, __get__, get_name, not_in_values, values_get.
  rewrite Hn. simpl.
  destruct f; simpl; by destruct (values _ !! o).
Qed.

Lemma wired_with_stored cls o f v :
  wired cls -> wired (with_descriptor f (stored (descriptor f cls) o v) cls).
Proof.
  intros Hw g. destruct (decide (f = g)) as [<-|Hne].
  - rewrite descriptor_with_same. apply Hw.
  - rewrite descriptor_with_other by done. apply Hw.
Qed.

Lemma setattr_accepted cls o f v :
  wired cls ->
  field_validator f v (field_name f) = Ok tt ->
  (setattr cls o f v).1 = Ok tt
  /\ wired (setattr cls o f v).2
  /\ values (descriptor f (setattr cls o f v).2) !! o = Some v.
Proof.
  intros Hw Hok. rewrite setattr_wired, Hok by done.
  cbn [fst snd]. split; [done|]. split; [by apply wired_with_stored|].
  rewrite descriptor_with_same. apply lookup_insert_eq.
Qed.

Lemma setattr_rejected cls o f v e :
  wired cls ->
  field_validator f v (field_name f) = Raise e ->
  setattr cls o f v = (Raise e, cls).
Proof. intros Hw Hbad. by rewrite setattr_wired, Hbad. Qed.

Lemma wired_class_body : wired class_body.
Proof. by intros []. Qed.

End Descriptor.

Section Invariant.


Lemma inv_boot : inv boot.
Proof.
  split; simpl.
  - apply wired_class_body.
  - intros o o' Ho. set_solver.
  - intros k o. by rewrite lookup_empty.
  - intros f o v. destruct f; simpl; by rewrite lookup_empty.
Qed.

Lemma fresh_spec o h :
  fresh o h = true -> (o ∉ h) /\ (forall o', o' ∈ h -> id o' <> id o).
Proof.
  unfold fresh. rewrite bool_decide_eq_true. intros Hall. split.
  - intros Hin. by apply (Hall o Hin).
  - intros o' Hin. by apply Hall.
Qed.

Lemma inv_new o rt :
  inv rt -> fresh o (heap rt) = true ->
  inv {| heap := {[o]} ∪ heap rt; klass := klass rt |}.
Proof.
  intros [Hw Hids Hc Hs] [Hnot Hfresh]%fresh_spec. split; simpl.
  - done.
  - intros a b [->%elem_of_singleton|Ha]%elem_of_union
                [->%elem_of_singleton|Hb]%elem_of_union Hid; auto.
    + symmetry in Hid. by destruct (Hfresh b Hb).
    + by destruct (Hfresh a Ha).
  - intros k a Hk. destruct (Hc k a Hk) as [Hid Hin]. split; [done|].
    apply elem_of_union. by right.
  - intros f a v Hv. destruct (Hs f a v Hv) as [Hin Hok]. split; [|done].
    apply elem_of_union. by right.
Qed.

Lemma inv_setattr o f v rt :
  inv rt -> o ∈ heap rt ->
  inv {| heap := heap rt; klass := (setattr (klass rt) o f v).2 |}.
Proof.
  intros [Hw Hids Hc Hs] Ho. rewrite setattr_wired by done.
  destruct (field_validator f v (field_name f)) as [[]|e] eqn:Hval;
    simpl; [|by split].
  split; simpl.
  - by apply wired_with_stored.
  - done.
  - intros k a. rewrite cache_with_descriptor. apply Hc.
  - intros g a u. destruct (decide (f = g)) as [<-|Hne].
    + rewrite descriptor_with_same. simpl.
      destruct (decide (o = a)) as [<-|Hoa].
      * rewrite lookup_insert_eq. by intros [= <-].
      * rewrite lookup_insert_ne by done. apply Hs.
    + rewrite descriptor_with_other by done. apply Hs.
Qed.

Lemma inv_set_default v rt :
  inv rt ->
  inv {| heap := heap rt; klass := set_default_last_login v (klass rt) |}.
Proof.
  intros [Hw Hids Hc Hs]. by split.
Qed.

Lemma inv_add_to_cache o rt :
  inv rt -> o ∈ heap rt ->
  inv {| heap := heap rt; klass := add_to_cache (klass rt) o |}.
Proof.
  intros [Hw Hids Hc Hs] Ho. split; simpl; try done.
  intros k a. destruct (decide (id o = k)) as [<-|Hne].
  - rewrite lookup_insert_eq. by intros [= <-].
  - rewrite lookup_insert_ne by done. apply Hc.
Qed.

Lemma purge_value_lookup o (m : gmap Z instance) k a :
  purge_value o m !! k = Some a <-> m !! k = Some a /\ a <> o.
Proof. unfold purge_value. by rewrite map_lookup_filter_Some. Qed.

Lemma inv_reclaim o rt :
  inv rt ->
  inv {| heap := heap rt ∖ {[o]}; klass := reclaim o (klass rt) |}.
Proof.
  intros [Hw Hids Hc Hs]. split; simpl.
  - intros f. specialize (Hw f). by destruct f.
  - intros a b [Ha _]%elem_of_difference [Hb _]%elem_of_difference.
    by apply Hids.
  - intros k a [Hk Hne]%purge_value_lookup.
    destruct (Hc k a Hk) as [Hid Hin]. split; [done|].
    apply elem_of_difference. split; [done|]. by rewrite elem_of_singleton.
  - intros f a v Hv.
    assert (o <> a /\ values (descriptor f (klass rt)) !! a = Some v)
      as [Hne Hv'].
    { destruct f; simpl in Hv; by apply lookup_delete_Some in Hv. }
    destruct (Hs f a v Hv') as [Hin Hok]. split; [|done].
    apply elem_of_difference. split; [done|].
    rewrite elem_of_singleton. congruence.
Qed.

Lemma inv_step ev rt rt' :
  inv rt -> step ev rt = Some rt' -> inv rt'.
Proof.
  intros Hinv. destruct ev as [o|o f v|v|o|o]; simpl.
  - destruct (fresh o (heap rt)) eqn:Hf; [|done].
    intros [= <-]. by apply inv_new.
  - destruct (bool_decide (o ∈ heap rt)) eqn:Ho; [|done].
    destruct (value_live v (heap rt)); [|done].
    apply bool_decide_eq_true in Ho.
    intros [= <-]. by apply inv_setattr.
  - destruct (value_live v (heap rt)); [|done].
    intros [= <-]. by apply inv_set_default.
  - destruct (bool_decide (o ∈ heap rt)) eqn:Ho; [|done].
    apply bool_decide_eq_true in Ho.
    intros [= <-]. by apply inv_add_to_cache.
  - destruct (bool_decide (o ∈ heap rt) && negb (class_holds (klass rt) o));
      [|done].
    intros [= <-]. by apply inv_reclaim.
Qed.

Lemma inv_run evs : forall rt rt',
  inv rt -> run evs rt = Some rt' -> inv rt'.
Proof.
  induction evs as [|ev evs IH]; intros rt rt' Hinv; simpl.
  - by intros [= <-].
  - destruct (step ev rt) as [rt1|] eqn:Hstep; [|done].
    apply IH. by eapply inv_step.
Qed.

Lemma reachable_inv rt : reachable rt -> inv rt.
Proof. intros [evs Hrun]. eapply inv_run; [apply inv_boot|done]. Qed.

Lemma run_app evs1 evs2 rt :
  run (evs1 ++ evs2) rt =
    match run evs1 rt with
    | Some rt1 => run evs2 rt1
    | None => None
    end.
Proof.
  revert rt. induction evs1 as [|ev evs1 IH]; intros rt; simpl; [done|].
  by destruct (step ev rt).
Qed.

End Invariant.

Section Validators.

Lemma contains_has_char c s : contains c s = true <-> has_char c s.
Proof.
  unfold has_char. induction s as [|a s IH]; simpl.
  - split; [done|tauto].
  - destruct (Ascii.eqb_spec a c) as [->|Hne].
    + split; auto.
    + rewrite IH. split; [auto|]. by intros [Heq|Hin].
Qed.

Lemma validate_username_ok v n :
  validate_username v n = Ok tt <-> acceptable Username v.
Proof.
  simpl. destruct v as [| | |s| | | |]; try (split; [done|by intros (s&?&?)]).
  destruct s as [|a s]; cbv [validate_username isinstance_str truthy negb orb].
  - split; [done|]. by intros (s&[= <-]&?).
  - split; [|done]. intros _. by eexists.
Qed.

Lemma validate_email_ok v n :
  validate_email v n = Ok tt <-> acceptable Email v.
Proof.
  simpl. destruct v as [| | |s| | | |]; try (split; [done|by intros (s&?&?)]).
  simpl. split.
  - destruct (contains "@" s) eqn:Hat, (contains "." s) eqn:Hdot;
      simpl; try done.
    intros _. exists s. by rewrite <- !contains_has_char.
  - intros (s'&[= <-]&Hat&Hdot).
    apply contains_has_char in Hat, Hdot. by rewrite Hat, Hdot.
Qed.

Lemma validate_last_login_ok v n :
  validate_last_login v n = Ok tt <-> acceptable LastLogin v.
Proof.
  simpl. destruct v; cbv [validate_last_login is_None isinstance_datetime
                            negb andb];
    (split; [intros ?|intros [?|[? ?]]]); try done; eauto.
Qed.

Lemma field_validator_ok f v :
  field_validator f v (field_name f) = Ok tt <-> acceptable f v.
Proof.
  destruct f; [apply validate_username_ok|apply validate_email_ok
              |apply validate_last_login_ok].
Qed.

(** A validator raises nothing but [ValueError]. *)
Lemma field_validator_raises f v n e :
  field_validator f v n = Raise e -> exists msg, e = ValueError msg.
Proof.
  destruct f; simpl;
    [unfold validate_username|unfold validate_email
    |unfold validate_last_login];
    repeat case_match; intros [= <-]; by eexists.
Qed.

Lemma field_validator_cases f v n :
  field_validator f v n = Ok tt \/
  exists msg, field_validator f v n = Raise (ValueError msg).
Proof.
  destruct (field_validator f v n) as [[]|e] eqn:H; [by left|right].
  destruct (field_validator_raises _ _ _ _ H) as [msg ->]. by eexists.
Qed.

End Validators.

Section Histories.

Lemma cache_setattr cls o f v : _cache (setattr cls o f v).2 = _cache cls.
Proof.
  unfold setattr. destruct (__set__ (descriptor f cls) o v) as [r d].
  simpl. apply cache_with_descriptor.
Qed.

(** An event changes the cache entry for [k] as [latest_step] says. *)
Lemma cache_step k ev rt rt' :
  step ev rt = Some rt' ->
  _cache (klass rt') !! k = latest_step k (_cache (klass rt) !! k) ev.
Proof.
  destruct ev as [o|o f v|v|o|o]; simpl;
    (destruct_and? || idtac); repeat case_match; try done;
    intros [= <-]; simpl; try done.
  - by rewrite cache_setattr.
  - subst. by rewrite lookup_insert_eq.
  - by rewrite lookup_insert_ne.
  - unfold purge_value. apply map_lookup_filter_None. right.
    intros a Ha. simpl. intros Hne. congruence.
  - unfold purge_value.
    destruct (_cache (klass rt) !! k) as [a|] eqn:Hk.
    + apply map_lookup_filter_Some. split; [done|]. simpl. congruence.
    + apply map_lookup_filter_None. by left.
Qed.

Lemma cache_run k evs : forall rt rt',
  run evs rt = Some rt' ->
  _cache (klass rt') !! k = fold_left (latest_step k) evs (_cache (klass rt) !! k).
Proof.
  induction evs as [|ev evs IH]; intros rt rt'; simpl.
  - by intros [= <-].
  - destruct (step ev rt) as [rt1|] eqn:Hstep; [|done].
    intros Hrun. rewrite (IH _ _ Hrun). by rewrite (cache_step k _ _ _ Hstep).
Qed.

Lemma latest_none k evs :
  (forall o, In (AddToCache o) evs -> id o <> k) ->
  fold_left (latest_step k) evs None = None.
Proof.
  induction evs as [|ev evs IH]; simpl; [done|]. intros Hno.
  assert (latest_step k None ev = None) as ->.
  { destruct ev as [o|o f v|v|o|o]; simpl; try done.
    destruct (decide (id o = k)) as [Heq|]; [|done].
    destruct (Hno o); auto. }
  apply IH. intros o Hin. apply Hno. by right.
Qed.

(** Only an accepted write of [o.f] and the reclaiming of [o] change what
    a field store holds for [o]. *)
Lemma store_step o f ev rt rt' :
  inv rt -> step ev rt = Some rt' ->
  ev <> Reclaim o -> ~ writes o f ev ->
  values (descriptor f (klass rt')) !! o
  = values (descriptor f (klass rt)) !! o.
Proof.
  intros Hinv Hstep Hrec Hwr.
  destruct ev as [a|a g v|v|a|a]; simpl in Hstep.
  - destruct (fresh a (heap rt)); [|done]. by injection Hstep as <-.
  - destruct (bool_decide (a ∈ heap rt) && value_live v (heap rt)); [|done].
    injection Hstep as <-. simpl.
    rewrite setattr_wired by apply Hinv.
    destruct (field_validator g v (field_name g)) as [[]|e] eqn:Hval;
      simpl; [|done].
    destruct (decide (g = f)) as [->|Hgf].
    + rewrite descriptor_with_same. simpl.
      destruct (decide (a = o)) as [->|Hao].
      * destruct Hwr. by exists v.
      * by rewrite lookup_insert_ne.
    + by rewrite descriptor_with_other.
  - destruct (value_live v (heap rt)); [|done].
    injection Hstep as <-. by destruct f.
  - destruct (bool_decide (a ∈ heap rt)); [|done].
    injection Hstep as <-. by destruct f.
  - destruct (bool_decide (a ∈ heap rt) && negb (class_holds (klass rt) a));
      [|done].
    injection Hstep as <-.
    assert (a <> o) by congruence.
    destruct f; simpl; by rewrite lookup_delete_ne.
Qed.

Lemma store_run o f evs : forall rt rt',
  inv rt -> run evs rt = Some rt' ->
  Forall (fun ev => ev <> Reclaim o /\ ~ writes o f ev) evs ->
  values (descriptor f (klass rt')) !! o
  = values (descriptor f (klass rt)) !! o.
Proof.
  induction evs as [|ev evs IH]; intros rt rt' Hinv; simpl.
  - by intros [= <-].
  - destruct (step ev rt) as [rt1|] eqn:Hstep; [|done].
    intros Hrun [[Hrec Hwr] Hall]%Forall_cons.
    rewrite (IH rt1 rt') by eauto using inv_step.
    by eapply store_step.
Qed.

(** A newly created object is in no field store. *)
Lemma store_new o f rt rt' :
  inv rt -> step (New o) rt = Some rt' ->
  values (descriptor f (klass rt')) !! o = None.
Proof.
  intros Hinv. simpl. destruct (fresh o (heap rt)) eqn:Hf; [|done].
  intros [= <-]. simpl. apply fresh_spec in Hf as [Hnot _].
  destruct (values (descriptor f (klass rt)) !! o) as [v|] eqn:Hv; [|done].
  by destruct (inv_store _ Hinv f o v Hv).
Qed.

End Histories.

(** ** The module on concrete inputs *)

Example alice_profile :
  getattr (klass demo_rt) alice Username = Ok (GotValue (VStr "alice"))
  /\ getattr (klass demo_rt) alice Email
     = Ok (GotValue (VStr "a@example.com"))
  /\ getattr (klass demo_rt) alice LastLogin = Ok (GotValue VNone)
  /\ get_from_cache (klass demo_rt) (id alice) = VObj alice.
Proof. vm_compute. by repeat split. Qed.

Example email_without_at :
  setattr (klass demo_rt) alice Email (VStr "alice-example.com")
  = (Raise (ValueError "email must contain '@' and '.'"), klass demo_rt).
Proof. vm_compute. reflexivity. Qed.

Example email_not_text :
  (setattr (klass demo_rt) alice Email (VBytes [])).1
  = Raise (ValueError "email must be a string").
Proof. vm_compute. reflexivity. Qed.

Example unbound_descriptor_read :
  __get__ (__init__ (Some validate_username)) (Some alice) class_body
  = Raise (AttributeError
             "'ValidatedProperty' object has no attribute 'name'").
Proof. reflexivity. Qed.

Example class_access_returns_descriptor :
  __get__ (username class_body) None class_body
  = Ok (GotDescriptor (username class_body)).
Proof. reflexivity. Qed.

(** An address can be used again: after [alice] is reclaimed, [carol]
    lives at her address and is what the cache returns for it. *)
Example address_reused :
  id carol = id alice
  /\ get_from_cache (klass reuse_rt) (id alice) = VObj carol.
Proof. vm_compute. by split. Qed.

(** * The claims *)

(** C1. For every non-empty string [s] and every profile object, the write
    [o.username = s] succeeds and the next read of [o.username] returns
    [s]. *)
Theorem username_roundtrip evs rt o s :
  run evs boot = Some rt ->
  s <> EmptyString ->
  (setattr (klass rt) o Username (VStr s)).1 = Ok tt
  /\ getattr (setattr (klass rt) o Username (VStr s)).2 o Username
     = Ok (GotValue (VStr s)).
Proof.
  intros Hrun Hs.
  assert (inv rt) as Hinv by (apply reachable_inv; by exists evs).
  destruct (setattr_accepted (klass rt) o Username (VStr s))
    as (Hres & Hw & Hv); [apply Hinv|apply field_validator_ok; by exists s|].
  split; [done|]. rewrite getattr_wired by done. by rewrite Hv.
Qed.

Lemma username_roundtrip_witness :
  (setattr (klass demo_rt) bob Username (VStr "bob")).1 = Ok tt
  /\ getattr (setattr (klass demo_rt) bob Username (VStr "bob")).2
             bob Username
     = Ok (GotValue (VStr "bob")).
Proof.
  apply (username_roundtrip demo demo_rt bob "bob").
  - vm_compute. reflexivity.
  - discriminate.
Defined.

(** C2. The write [o.email = v] succeeds exactly when [v] is a string that
    contains both ['@'] and ['.'], and then the next read returns [v];
    for any other [v] (a string lacking one of the two characters, or not a
    string) the write raises the validation error. *)
Theorem email_write evs rt o v :
  run evs boot = Some rt ->
  ((setattr (klass rt) o Email v).1 = Ok tt <-> acceptable Email v)
  /\ (acceptable Email v ->
      getattr (setattr (klass rt) o Email v).2 o Email = Ok (GotValue v))
  /\ (~ acceptable Email v ->
      exists msg, (setattr (klass rt) o Email v).1 = Raise (ValueError msg)).
Proof.
  intros Hrun.
  assert (inv rt) as Hinv by (apply reachable_inv; by exists evs).
  rewrite <- field_validator_ok.
  destruct (field_validator_cases Email v (field_name Email))
    as [Hok|[msg Hbad]].
  - destruct (setattr_accepted (klass rt) o Email v) as (Hres & Hw & Hv);
      [apply Hinv|done|].
    repeat split; try done.
    intros _. rewrite getattr_wired by done. by rewrite Hv.
  - rewrite (setattr_rejected _ _ _ _ _ (inv_wired _ Hinv) Hbad).
    cbn [fst snd]. rewrite Hbad. repeat split; try done.
    intros _. by exists msg.
Qed.

Lemma email_write_witness :
  ((setattr (klass demo_rt) bob Email (VStr "b@example.com")).1 = Ok tt
   <-> acceptable Email (VStr "b@example.com"))
  /\ (acceptable Email (VStr "b@example.com") ->
      getattr (setattr (klass demo_rt) bob Email (VStr "b@example.com")).2
              bob Email
      = Ok (GotValue (VStr "b@example.com")))
  /\ (~ acceptable Email (VStr "b@example.com") ->
      exists msg,
        (setattr (klass demo_rt) bob Email (VStr "b@example.com")).1
        = Raise (ValueError msg)).
Proof.
  apply (email_write demo demo_rt bob (VStr "b@example.com")).
  vm_compute. reflexivity.
Defined.

(** C3. A rejected write is all-or-nothing, for each of the three fields:
    when [v] is not a value the field takes, [o.f = v] raises the
    validation error to the caller and leaves the class state, hence what
    every read returns, as it was. *)
Theorem rejected_write_keeps_state evs rt o f v :
  run evs boot = Some rt ->
  ~ acceptable f v ->
  (exists msg, (setattr (klass rt) o f v).1 = Raise (ValueError msg))
  /\ (setattr (klass rt) o f v).2 = klass rt
  /\ (forall o' g,
        getattr (setattr (klass rt) o f v).2 o' g = getattr (klass rt) o' g).
Proof.
  intros Hrun Hbad.
  assert (inv rt) as Hinv by (apply reachable_inv; by exists evs).
  destruct (field_validator_cases f v (field_name f)) as [Hok|[msg Hmsg]].
  - by apply field_validator_ok in Hok.
  - rewrite (setattr_rejected _ _ _ _ _ (inv_wired _ Hinv) Hmsg).
    cbn [fst snd]. split; [by exists msg|done].
Qed.

Lemma rejected_write_keeps_state_witness :
  (exists msg,
      (setattr (klass demo_rt) alice Username (VStr "")).1
      = Raise (ValueError msg))
  /\ (setattr (klass demo_rt) alice Username (VStr "")).2 = klass demo_rt
  /\ (forall o' g,
        getattr (setattr (klass demo_rt) alice Username (VStr "")).2 o' g
        = getattr (klass demo_rt) o' g).
Proof.
  apply (rejected_write_keeps_state demo demo_rt alice Username (VStr "")).
  - vm_compute. reflexivity.
  - intros (s & [= <-] & Hne). by apply Hne.
Defined.

(** C4. Writing [None] to [last_login] always succeeds; writing a value
    that is neither [None] nor a [datetime] raises the validation error. *)
Theorem last_login_write evs rt o :
  run evs boot = Some rt ->
  (setattr (klass rt) o LastLogin VNone).1 = Ok tt
  /\ (forall v,
        v <> VNone -> (forall t, v <> VDatetime t) ->
        exists msg,
          (setattr (klass rt) o LastLogin v).1 = Raise (ValueError msg)).
Proof.
  intros Hrun.
  assert (inv rt) as Hinv by (apply reachable_inv; by exists evs).
  split.
  - by destruct (setattr_accepted (klass rt) o LastLogin VNone)
      as (Hres & _ & _); [apply Hinv|done|].
  - intros v Hnone Hdt.
    destruct (field_validator_cases LastLogin v (field_name LastLogin))
      as [Hok|[msg Hmsg]].
    + apply field_validator_ok in Hok as [->|[t ->]]; [done|].
      by destruct (Hdt t).
    + exists msg.
      by rewrite (setattr_rejected _ _ _ _ _ (inv_wired _ Hinv) Hmsg).
Qed.

Lemma last_login_write_witness :
  (setattr (klass demo_rt) alice LastLogin VNone).1 = Ok tt
  /\ (forall v,
        v <> VNone -> (forall t, v <> VDatetime t) ->
        exists msg,
          (setattr (klass demo_rt) alice LastLogin v).1
          = Raise (ValueError msg)).
Proof.
  apply (last_login_write demo demo_rt alice).
  vm_compute. reflexivity.
Defined.

(** C5. While an object's [last_login] has not been written since the
    object was created, reading it returns the class attribute
    [default_last_login] as it is at the time of the read; in particular
    assigning a new default changes what the read returns. *)
Theorem unwritten_last_login_reads_default evs evs' rt o :
  run (evs ++ New o :: evs') boot = Some rt ->
  Forall (fun ev => ev <> Reclaim o /\ ~ writes o LastLogin ev) evs' ->
  getattr (klass rt) o LastLogin
  = Ok (GotValue (default_last_login (klass rt)))
  /\ (forall d,
        getattr (set_default_last_login d (klass rt)) o LastLogin
        = Ok (GotValue d)).
Proof.
  rewrite run_app. destruct (run evs boot) as [rt0|] eqn:Hrun0; [|done].
  cbn [run]. destruct (step (New o) rt0) as [rt1|] eqn:Hnew; [|done].
  intros Hrun Hquiet.
  assert (inv rt0) as Hinv0 by (apply reachable_inv; by exists evs).
  assert (inv rt1) as Hinv1 by (by eapply inv_step).
  assert (inv rt) as Hinv by (by eapply inv_run).
  assert (values (descriptor LastLogin (klass rt)) !! o = None) as Hunset.
  { rewrite (store_run o LastLogin evs' rt1 rt) by done.
    by apply (store_new o LastLogin rt0). }
  split.
  - rewrite getattr_wired by apply Hinv. by rewrite Hunset.
  - intros d. rewrite getattr_wired; [simpl in *; by rewrite Hunset|].
    intros f. destruct (inv_wired _ Hinv f). by destruct f.
Qed.

Lemma unwritten_last_login_reads_default_witness :
  default_last_login (klass newcomer_rt) = VDatetime noon
  /\ getattr (klass newcomer_rt) alice LastLogin
     = Ok (GotValue (default_last_login (klass newcomer_rt))).
Proof.
  split; [vm_compute; reflexivity|].
  apply (unwritten_last_login_reads_default
           [] [SetDefault (VDatetime noon)] newcomer_rt alice).
  - vm_compute. reflexivity.
  - repeat constructor; [discriminate|by intros (v & [=] & _)].
Defined.

(** C7. Reading [username], [email] or [last_login] on an object never
    raises: the read returns the stored value when one was written, and
    otherwise [None] for [username] and [email], the class default for
    [last_login]. *)
Theorem read_never_fails evs rt o f :
  run evs boot = Some rt ->
  exists v,
    getattr (klass rt) o f = Ok (GotValue v)
    /\ match values (descriptor f (klass rt)) !! o with
       | Some w => v = w
       | None =>
           match f with
           | LastLogin => v = default_last_login (klass rt)
           | Username | Email => v = VNone
           end
       end.
Proof.
  intros Hrun.
  assert (inv rt) as Hinv by (apply reachable_inv; by exists evs).
  rewrite getattr_wired by apply Hinv. eexists. split; [done|].
  destruct (values (descriptor f (klass rt)) !! o); [done|by destruct f].
Qed.

Lemma read_never_fails_witness :
  exists v,
    getattr (klass demo_rt) alice Email = Ok (GotValue v)
    /\ match values (descriptor Email (klass demo_rt)) !! alice with
       | Some w => v = w
       | None => v = VNone
       end.
Proof.
  apply (read_never_fails demo demo_rt alice Email).
  vm_compute. reflexivity.
Defined.

(** C10. Once [None] has been written to an object's [last_login], reads
    of it return [None] and not the class default, whatever
    [default_last_login] is set to afterwards: a written [None] is told
    apart from a field that was never written. *)
Theorem written_none_shadows_default evs rt o evs' rt' :
  run evs boot = Some rt ->
  run (SetAttr o LastLogin VNone :: evs') rt = Some rt' ->
  Forall (fun ev => ev <> Reclaim o /\ ~ writes o LastLogin ev) evs' ->
  getattr (klass rt') o LastLogin = Ok (GotValue VNone)
  /\ (forall d,
        getattr (set_default_last_login d (klass rt')) o LastLogin
        = Ok (GotValue VNone)).
Proof.
  intros Hrun. cbn [run].
  destruct (step (SetAttr o LastLogin VNone) rt) as [rt1|] eqn:Hset; [|done].
  intros Hrun' Hquiet.
  assert (inv rt) as Hinv by (apply reachable_inv; by exists evs).
  assert (inv rt1) as Hinv1 by (by eapply inv_step).
  assert (inv rt') as Hinv' by (by eapply inv_run).
  assert (values (descriptor LastLogin (klass rt')) !! o = Some VNone)
    as Hset'.
  { rewrite (store_run o LastLogin evs' rt1 rt') by done.
    simpl in Hset.
    destruct (bool_decide (o ∈ heap rt) && value_live VNone (heap rt));
      [|done].
    injection Hset as <-. cbn [klass].
    by destruct (setattr_accepted (klass rt) o LastLogin VNone)
      as (_ & _ & Hv); [apply Hinv|done|]. }
  split.
  - rewrite getattr_wired by apply Hinv'. by rewrite Hset'.
  - intros d. rewrite getattr_wired; [simpl in *; by rewrite Hset'|].
    intros f. destruct (inv_wired _ Hinv' f). by destruct f.
Qed.

Lemma written_none_shadows_default_witness :
  default_last_login (klass shadow_rt) = VDatetime noon
  /\ getattr (klass shadow_rt) alice LastLogin = Ok (GotValue VNone).
Proof.
  split; [vm_compute; reflexivity|].
  apply (written_none_shadows_default
           demo demo_rt alice [SetDefault (VDatetime noon)] shadow_rt).
  - vm_compute. reflexivity.
  - vm_compute. reflexivity.
  - repeat constructor; [discriminate|by intros (v & [=] & _)].
Defined.

(** C6, as stated, fails: an email string that lacks ['@'] is rejected
    with a message that names the field but goes on with
    [must contain], not [must be]. *)
Lemma email_message_is_not_must_be :
  validate_email (VStr "alice-example.com") "email"
  = Raise (ValueError "email must contain '@' and '.'")
  /\ ~ must_be_message "email" "email must contain '@' and '.'".
Proof.
  split; [reflexivity|]. intros [rest Hrest]. simpl in Hrest.
  discriminate Hrest.
Qed.

(** C6, amended. Every validation failure is a [ValueError] whose message
    begins with the field name followed by [ must ]; it reads
    [<name> must be ...] for the username and last_login validators and for
    an email that is not a string, and [<name> must contain '@' and '.']
    for an email string that lacks one of the two characters. *)
Theorem validation_message f v n e :
  field_validator f v n = Raise e ->
  exists msg,
    e = ValueError msg
    /\ must_message n msg
    /\ match f, v with
       | Email, VStr _ => msg = n +:+ " must contain '@' and '.'"
       | _, _ => must_be_message n msg
       end.
Proof.
  destruct f; simpl;
    [unfold validate_username|unfold validate_email
    |unfold validate_last_login];
    repeat case_match; intros [= <-]; eexists;
    (split; [reflexivity|]); split; try reflexivity;
    try (by eexists (String _ _)).
Qed.

Lemma validation_message_witness :
  exists msg,
    ValueError "email must be a string" = ValueError msg
    /\ must_message "email" msg
    /\ must_be_message "email" msg.
Proof.
  apply (validation_message Email (VInt 7) "email"
           (ValueError "email must be a string")).
  reflexivity.
Defined.

Section Cache.

(** A cached object that stays alive stays where it was put. *)
Lemma cached_step o ev rt rt' :
  inv rt -> step ev rt = Some rt' -> ev <> Reclaim o ->
  o ∈ heap rt /\ _cache (klass rt) !! id o = Some o ->
  o ∈ heap rt' /\ _cache (klass rt') !! id o = Some o.
Proof.
  intros Hinv Hstep Hne [Hlive Hcached].
  rewrite (cache_step (id o) _ _ _ Hstep), Hcached.
  destruct ev as [a|a f v|v|a|a]; simpl in Hstep |- *.
  - destruct (fresh a (heap rt)); [|done]. injection Hstep as <-.
    split; [|done]. apply elem_of_union. by right.
  - destruct (bool_decide (a ∈ heap rt) && value_live v (heap rt)); [|done].
    by injection Hstep as <-.
  - destruct (value_live v (heap rt)); [|done]. by injection Hstep as <-.
  - destruct (bool_decide (a ∈ heap rt)) eqn:Ha; [|done].
    apply bool_decide_eq_true in Ha. injection Hstep as <-.
    split; [done|]. destruct (decide (id a = id o)) as [Heq|]; [|done].
    f_equal. by apply (inv_ids _ Hinv).
  - destruct (bool_decide (a ∈ heap rt) && negb (class_holds (klass rt) a));
      [|done].
    injection Hstep as <-. assert (a <> o) by congruence. split.
    + apply elem_of_difference. split; [done|].
      rewrite elem_of_singleton. congruence.
    + destruct (decide (Some o = Some a)) as [[= ->]|]; done.
Qed.

Lemma cached_run o evs : forall rt rt',
  inv rt -> run evs rt = Some rt' ->
  Forall (fun ev => ev <> Reclaim o) evs ->
  o ∈ heap rt /\ _cache (klass rt) !! id o = Some o ->
  o ∈ heap rt' /\ _cache (klass rt') !! id o = Some o.
Proof.
  induction evs as [|ev evs IH]; intros rt rt' Hinv; simpl.
  - by intros [= <-].
  - destruct (step ev rt) as [rt1|] eqn:Hstep; [|done].
    intros Hrun [Hne Hall]%Forall_cons Hnow.
    apply (IH rt1 rt'); eauto using inv_step, cached_step.
Qed.

End Cache.

(** C8. [get_from_cache(k)] returns the object most recently added under
    [k] as long as that object is alive, and [None] when nothing was ever
    added under [k]; a lookup under one object's key never returns an
    object with another key, and two distinct live objects have distinct
    keys. *)
Theorem cache_lookup evs rt :
  run evs boot = Some rt ->
  (forall k, get_from_cache (klass rt) k = optional (latest k evs))
  /\ (forall evs1 o evs2,
        evs = evs1 ++ AddToCache o :: evs2 ->
        Forall (fun ev => ev <> Reclaim o) evs2 ->
        get_from_cache (klass rt) (id o) = VObj o)
  /\ (forall k,
        (forall o, In (AddToCache o) evs -> id o <> k) ->
        get_from_cache (klass rt) k = VNone)
  /\ (forall e1 e2,
        id e1 <> id e2 -> get_from_cache (klass rt) (id e1) <> VObj e2)
  /\ (forall e1 e2,
        e1 ∈ heap rt -> e2 ∈ heap rt -> e1 <> e2 -> id e1 <> id e2).
Proof.
  intros Hrun.
  assert (inv rt) as Hinv by (apply reachable_inv; by exists evs).
  assert (forall k, _cache (klass rt) !! k = latest k evs) as Hlatest.
  { intros k. by rewrite (cache_run k evs boot rt Hrun). }
  repeat split.
  - intros k. unfold get_from_cache. by rewrite Hlatest.
  - intros evs1 o evs2 -> Hquiet. revert Hrun. rewrite run_app.
    destruct (run evs1 boot) as [rt0|] eqn:Hrun0; [|done]. cbn [run].
    destruct (step (AddToCache o) rt0) as [rt1|] eqn:Hadd; [|done].
    intros Hrun.
    assert (inv rt0) as Hinv0 by (apply reachable_inv; by exists evs1).
    assert (inv rt1) as Hinv1 by (by eapply inv_step).
    destruct (cached_run o evs2 rt1 rt) as [_ Hc]; try done.
    + simpl in Hadd.
      destruct (bool_decide (o ∈ heap rt0)) eqn:Ho; [|done].
      apply bool_decide_eq_true in Ho. injection Hadd as <-. simpl.
      split; [done|apply lookup_insert_eq].
    + unfold get_from_cache. by rewrite Hc.
  - intros k Hnever. unfold get_from_cache.
    rewrite Hlatest. unfold latest. by rewrite latest_none.
  - intros e1 e2 Hne. unfold get_from_cache.
    destruct (_cache (klass rt) !! id e1) as [a|] eqn:Ha; [|done].
    intros [= ->]. destruct (inv_cache _ Hinv _ _ Ha). congruence.
  - intros e1 e2 H1 H2 Hne Hid. by apply Hne, (inv_ids _ Hinv).
Qed.

Lemma cache_lookup_witness :
  get_from_cache (klass reuse_rt) (id alice) = VObj carol
  /\ get_from_cache (klass reuse_rt) (id bob) = VObj bob
  /\ get_from_cache (klass reuse_rt) 12288 = VNone
  /\ get_from_cache (klass reuse_rt) (id carol) <> VObj bob.
Proof.
  destruct (cache_lookup reuse reuse_rt) as (H1 & H2 & H3 & H4 & _).
  { vm_compute. reflexivity. }
  split; [by rewrite H1|]. split.
  { apply (H2 [New alice; AddToCache alice; New bob] bob
              [Reclaim alice; New carol; AddToCache carol]);
      [reflexivity|]. repeat constructor; discriminate. }
  split.
  { apply H3. intros o Hin. simpl in Hin.
    repeat (destruct Hin as [[=]|Hin]; subst; try discriminate). done. }
  apply H4. discriminate.
Defined.

Section Lifetime.




End Lifetime.




(** * Further properties of the module *)

Section DescriptorAlone.

(** [__set__] either leaves the descriptor as it was or adds one entry. *)
Lemma set_shape d i v :
  (__set__ d i v).2 = d \/ (__set__ d i v).2 = stored d i v.
Proof.
  unfold __set__.
  destruct (match validator d with
            | Some f => n ← get_name d; f v n
            | None => Ok tt
            end); [by right|by left].
Qed.

(** [__get__] looks at its owner class only for the default. *)
Lemma get_owner d i c c' :
  default_last_login c = default_last_login c' ->
  __get__ d i c = __get__ d i c'.
Proof. intros Heq. unfold __get__. by rewrite Heq. Qed.

Lemma get_stored_other d i j v c :
  i <> j -> __get__ (stored d i v) (Some j) c = __get__ d (Some j) c.
Proof.
  intros Hne. unfold __get__, get_name, not_in_values, values_get. simpl.
  by rewrite lookup_insert_ne.
Qed.

Lemma with_descriptor_twice f d d' cls :
  with_descriptor f d (with_descriptor f d' cls) = with_descriptor f d cls.
Proof. by destruct f. Qed.

Lemma default_setattr cls o f v :
  default_last_login (setattr cls o f v).2 = default_last_login cls.
Proof.
  unfold setattr. destruct (__set__ (descriptor f cls) o v) as [r d].
  by destruct f.
Qed.

End DescriptorAlone.

(** X1. The descriptor works with any validator plugged into it: when the
    descriptor is bound to a name and its validator accepts [v] under that
    name, [__set__] succeeds and the next [__get__] for the same instance
    returns [v], whatever the owner class and also when the name is
    [last_login]. *)
Theorem descriptor_roundtrip d f n i v owner :
  validator d = Some f ->
  name d = Some n ->
  f v n = Ok tt ->
  (__set__ d i v).1 = Ok tt
  /\ __get__ (__set__ d i v).2 (Some i) owner = Ok (GotValue v).
Proof.
  intros Hf Hn Hok. unfold __set__, get_name. rewrite Hf, Hn. simpl.
  rewrite Hok. simpl. split; [done|].
  unfold __get__, get_name, not_in_values, values_get. simpl.
  rewrite lookup_insert_eq. simpl. by rewrite andb_false_r.
Qed.

Lemma descriptor_roundtrip_witness :
  (__set__ (last_login class_body) alice (VDatetime noon)).1 = Ok tt
  /\ __get__ (__set__ (last_login class_body) alice (VDatetime noon)).2
             (Some alice) class_body
     = Ok (GotValue (VDatetime noon)).
Proof.
  apply (descriptor_roundtrip (last_login class_body) validate_last_login
           "last_login" alice (VDatetime noon) class_body);
    reflexivity.
Defined.

(** X2. A descriptor without a validator (the default of [__init__])
    checks nothing: [__set__] stores any value, bound to a name or not,
    and once a name is bound [__get__] returns that value. *)
Theorem unvalidated_descriptor_stores_anything d i v :
  validator d = None ->
  (__set__ d i v).1 = Ok tt
  /\ values (__set__ d i v).2 !! i = Some v
  /\ (forall n owner,
        name d = Some n ->
        __get__ (__set__ d i v).2 (Some i) owner = Ok (GotValue v)).
Proof.
  intros Hnone. unfold __set__. rewrite Hnone. simpl.
  split; [done|]. split; [apply lookup_insert_eq|].
  intros n owner Hn.
  unfold __get__, get_name, not_in_values, values_get. simpl.
  rewrite Hn, lookup_insert_eq. simpl. by rewrite andb_false_r.
Qed.

Lemma unvalidated_descriptor_stores_anything_witness :
  (__set__ (__init__ None) alice (VList [VInt 1])).1 = Ok tt
  /\ values (__set__ (__init__ None) alice (VList [VInt 1])).2 !! alice
     = Some (VList [VInt 1])
  /\ (forall n owner,
        name (__init__ None) = Some n ->
        __get__ (__set__ (__init__ None) alice (VList [VInt 1])).2
                (Some alice) owner
        = Ok (GotValue (VList [VInt 1]))).
Proof.
  apply (unvalidated_descriptor_stores_anything
           (__init__ None) alice (VList [VInt 1])).
  reflexivity.
Defined.

(** X3. A descriptor that has a validator but was never bound to a name
    (it was not created in a class body) is unusable on instances: every
    [__set__] raises [AttributeError] before the validator runs and stores
    nothing, every instance read raises [AttributeError]; access through
    the class still returns the descriptor. *)
Theorem unbound_descriptor_raises d f i v owner :
  validator d = Some f ->
  name d = None ->
  (exists msg, __set__ d i v = (Raise (AttributeError msg), d))
  /\ (exists msg, __get__ d (Some i) owner = Raise (AttributeError msg))
  /\ __get__ d None owner = Ok (GotDescriptor d).
Proof.
  intros Hf Hn. unfold __set__, __get__, get_name. rewrite Hf, Hn. simpl.
  repeat split; by eexists.
Qed.

Lemma unbound_descriptor_raises_witness :
  (exists msg,
      __set__ (__init__ (Some validate_username)) alice (VStr "alice")
      = (Raise (AttributeError msg), __init__ (Some validate_username)))
  /\ (exists msg,
        __get__ (__init__ (Some validate_username)) (Some alice) class_body
        = Raise (AttributeError msg))
  /\ __get__ (__init__ (Some validate_username)) None class_body
     = Ok (GotDescriptor (__init__ (Some validate_username))).
Proof.
  apply (unbound_descriptor_raises (__init__ (Some validate_username))
           validate_username alice (VStr "alice") class_body);
    reflexivity.
Defined.

(** X4. A write touches one field of one object: after [o.f = v],
    accepted or not, every other attribute of [o] and every attribute of
    every other object reads as before. *)
Theorem write_is_local cls o f v o' g :
  (o', g) <> (o, f) ->
  getattr (setattr cls o f v).2 o' g = getattr cls o' g.
Proof.
  intros Hne. unfold getattr.
  rewrite (get_owner _ _ _ cls) by apply default_setattr.
  unfold setattr.
  destruct (__set__ (descriptor f cls) o v) as [r d] eqn:Hset. simpl.
  destruct (decide (f = g)) as [<-|Hfg].
  - rewrite descriptor_with_same.
    assert (o <> o') as Hoo by congruence.
    destruct (set_shape (descriptor f cls) o v) as [Hd|Hd];
      rewrite Hset in Hd; simpl in Hd; subst d; [done|].
    by apply get_stored_other.
  - by rewrite descriptor_with_other.
Qed.

Lemma write_is_local_witness :
  getattr (setattr (klass demo_rt) bob Username (VStr "bob")).2
          alice Username
  = getattr (klass demo_rt) alice Username.
Proof.
  apply (write_is_local (klass demo_rt) bob Username (VStr "bob")
           alice Username).
  discriminate.
Defined.

(** X5. The last accepted write wins and leaves no trace of what was
    written before: [o.f = v1; o.f = v2] with [v2] acceptable ends in the
    same state, with the same result, as [o.f = v2] alone. *)
Theorem later_write_replaces_earlier evs rt o f v1 v2 :
  run evs boot = Some rt ->
  acceptable f v2 ->
  setattr (setattr (klass rt) o f v1).2 o f v2 = setattr (klass rt) o f v2
  /\ getattr (setattr (setattr (klass rt) o f v1).2 o f v2).2 o f
     = Ok (GotValue v2).
Proof.
  intros Hrun Hok%field_validator_ok.
  assert (inv rt) as Hinv by (apply reachable_inv; by exists evs).
  pose proof (inv_wired _ Hinv) as Hw.
  assert (setattr (setattr (klass rt) o f v1).2 o f v2
          = setattr (klass rt) o f v2) as Heq.
  { rewrite (setattr_wired (klass rt) o f v1) by done.
    destruct (field_validator f v1 (field_name f)) as [[]|e]; [|done].
    cbn [fst snd].
    rewrite !setattr_wired, Hok by (done || by apply wired_with_stored).
    rewrite descriptor_with_same, with_descriptor_twice.
    unfold stored. simpl. by rewrite insert_insert_eq. }
  split; [done|]. rewrite Heq.
  destruct (setattr_accepted (klass rt) o f v2) as (_ & Hw2 & Hv2);
    [done..|].
  rewrite getattr_wired by done. by rewrite Hv2.
Qed.

Lemma later_write_replaces_earlier_witness :
  setattr (setattr (klass demo_rt) alice Email (VStr "x@y.z")).2
          alice Email (VStr "a@b.c")
  = setattr (klass demo_rt) alice Email (VStr "a@b.c")
  /\ getattr
       (setattr (setattr (klass demo_rt) alice Email (VStr "x@y.z")).2
                alice Email (VStr "a@b.c")).2
       alice Email
     = Ok (GotValue (VStr "a@b.c")).
Proof.
  apply (later_write_replaces_earlier demo demo_rt alice Email
           (VStr "x@y.z") (VStr "a@b.c")).
  - vm_compute. reflexivity.
  - exists "a@b.c"%string. vm_compute. tauto.
Defined.

Section Composition.

Lemma contains_append c a b :
  contains c (a +:+ b) = contains c a || contains c b.
Proof.
  induction a as [|x a IH]; simpl; [done|].
  by destruct (Ascii.eqb x c).
Qed.


Lemma values_reclaim_other f cls o o' :
  o' <> o ->
  values (descriptor f (reclaim o cls)) !! o'
  = values (descriptor f cls) !! o'.
Proof. intros Hne. destruct f; simpl; by rewrite lookup_delete_ne. Qed.

Lemma step_reclaim_inv o rt rt' :
  step (Reclaim o) rt = Some rt' ->
  rt' = {| heap := heap rt ∖ {[o]}; klass := reclaim o (klass rt) |}.
Proof.
  simpl.
  destruct (bool_decide (o ∈ heap rt) && negb (class_holds (klass rt) o));
    [|done].
  by intros [= <-].
Qed.

End Composition.

(** X6. Whatever a field store holds was validated and belongs to a live
    object: in every reachable state an entry for [o] in the store of
    field [f] means that [o] is alive, that the value is one the field
    accepts, and that it is what reading [o.f] returns. *)
Theorem stored_values_are_valid evs rt o f v :
  run evs boot = Some rt ->
  values (descriptor f (klass rt)) !! o = Some v ->
  acceptable f v
  /\ o ∈ heap rt
  /\ getattr (klass rt) o f = Ok (GotValue v).
Proof.
  intros Hrun Hv.
  assert (inv rt) as Hinv by (apply reachable_inv; by exists evs).
  destruct (inv_store _ Hinv f o v Hv) as [Hlive Hok].
  split; [by apply field_validator_ok|]. split; [done|].
  rewrite getattr_wired by apply Hinv. by rewrite Hv.
Qed.

Lemma stored_values_are_valid_witness :
  acceptable Email (VStr "a@example.com")
  /\ alice ∈ heap demo_rt
  /\ getattr (klass demo_rt) alice Email
     = Ok (GotValue (VStr "a@example.com")).
Proof.
  apply (stored_values_are_valid demo demo_rt alice Email
           (VStr "a@example.com")).
  - vm_compute. reflexivity.
  - vm_compute. reflexivity.
Defined.

(** X7. The cache never hands out a reclaimed object or an object filed
    under another key: in every reachable state [get_from_cache(k)] is
    either [None] or a live object whose [id] is [k]. *)
Theorem cache_returns_live_object evs rt k :
  run evs boot = Some rt ->
  get_from_cache (klass rt) k = VNone
  \/ exists o,
       get_from_cache (klass rt) k = VObj o /\ id o = k /\ o ∈ heap rt.
Proof.
  intros Hrun.
  assert (inv rt) as Hinv by (apply reachable_inv; by exists evs).
  unfold get_from_cache.
  destruct (_cache (klass rt) !! k) as [o|] eqn:Hk; [right|by left].
  destruct (inv_cache _ Hinv k o Hk). by exists o.
Qed.

Lemma cache_returns_live_object_witness :
  get_from_cache (klass departed_rt) 4096 = VNone
  \/ exists o,
       get_from_cache (klass departed_rt) 4096 = VObj o
       /\ id o = 4096%Z /\ o ∈ heap departed_rt.
Proof.
  apply (cache_returns_live_object departed departed_rt 4096).
  vm_compute. reflexivity.
Defined.

(** X8. A new object starts blank even when it gets the address of an
    object that was written and cached before: right after its creation
    the cache has nothing under its [id], [username] and [email] read
    [None] and [last_login] reads the class default. *)
Theorem new_object_starts_blank evs rt o rt' :
  run evs boot = Some rt ->
  step (New o) rt = Some rt' ->
  get_from_cache (klass rt') (id o) = VNone
  /\ getattr (klass rt') o Username = Ok (GotValue VNone)
  /\ getattr (klass rt') o Email = Ok (GotValue VNone)
  /\ getattr (klass rt') o LastLogin
     = Ok (GotValue (default_last_login (klass rt'))).
Proof.
  intros Hrun Hnew.
  assert (inv rt) as Hinv by (apply reachable_inv; by exists evs).
  assert (inv rt') as Hinv' by (by eapply inv_step).
  pose proof (fun f => store_new o f rt rt' Hinv Hnew) as Hblank.
  split.
  - simpl in Hnew. destruct (fresh o (heap rt)) eqn:Hf; [|done].
    injection Hnew as <-. simpl. unfold get_from_cache.
    destruct (_cache (klass rt) !! id o) as [a|] eqn:Ha; [|done].
    destruct (inv_cache _ Hinv _ _ Ha) as [Hid Hin].
    apply fresh_spec in Hf as [_ Hf]. by destruct (Hf a Hin).
  - rewrite !getattr_wired by apply Hinv'. by rewrite !Hblank.
Qed.

Lemma new_object_starts_blank_witness :
  id carol = id alice
  /\ get_from_cache (klass returned_rt) (id carol) = VNone
  /\ getattr (klass returned_rt) carol Username = Ok (GotValue VNone)
  /\ getattr (klass returned_rt) carol Email = Ok (GotValue VNone)
  /\ getattr (klass returned_rt) carol LastLogin
     = Ok (GotValue (default_last_login (klass returned_rt))).
Proof.
  split; [reflexivity|].
  apply (new_object_starts_blank departed departed_rt carol returned_rt).
  - vm_compute. reflexivity.
  - vm_compute. reflexivity.
Defined.




(** X11. [add_to_cache] files an object under its [id] and nothing more:
    caching the same object twice is the same as caching it once, objects
    with different ids can be cached in either order, and an object cached
    under an id that is taken replaces the earlier entry. *)
Theorem add_to_cache_repeat_and_order cls o o' :
  add_to_cache (add_to_cache cls o) o = add_to_cache cls o
  /\ (id o <> id o' ->
      add_to_cache (add_to_cache cls o) o'
      = add_to_cache (add_to_cache cls o') o)
  /\ (id o = id o' ->
      add_to_cache (add_to_cache cls o) o' = add_to_cache cls o').
Proof.
  unfold add_to_cache. simpl. repeat split.
  - by rewrite insert_insert_eq.
  - intros Hne. f_equal. by apply insert_insert_ne.
  - intros ->. by rewrite insert_insert_eq.
Qed.

(** X12. The name passed to a validator shapes the message and nothing
    else: for two names the validator either accepts the value under both,
    or rejects it under both with the same text after the name. *)
Theorem verdict_ignores_name f v n n' :
  (field_validator f v n = Ok tt /\ field_validator f v n' = Ok tt)
  \/ exists rest,
       field_validator f v n = Raise (ValueError (n +:+ rest))
       /\ field_validator f v n' = Raise (ValueError (n' +:+ rest)).
Proof.
  destruct f; simpl;
    [unfold validate_username|unfold validate_email
    |unfold validate_last_login];
    repeat case_match; (by left) || (right; by eexists).
Qed.

(** X13. The email check looks for the two characters and at nothing
    else: an accepted address stays accepted with any text put before and
    after it, and every accepted address has at least two characters. *)
Theorem email_check_is_permissive s p q n :
  validate_email (VStr s) n = Ok tt ->
  validate_email (VStr (p +:+ s +:+ q)) n = Ok tt
  /\ 2 <= String.length s.
Proof.
  unfold validate_email.
  destruct (contains "@" s) eqn:Hat, (contains "." s) eqn:Hdot;
    simpl; try done.
  intros _. split.
  - rewrite !contains_append, Hat, Hdot. simpl.
    by rewrite !orb_true_r.
  - destruct s as [|a [|b s]]; simpl in *; try done; [|lia].
    destruct (Ascii.eqb_spec a "@") as [->|]; [done|done].
Qed.

Lemma email_check_is_permissive_witness :
  validate_email (VStr ("<" +:+ "a@example.com" +:+ "> and more")) "email"
  = Ok tt
  /\ 2 <= String.length "a@example.com".
Proof.
  apply (email_check_is_permissive "a@example.com" "<" "> and more" "email").
  reflexivity.
Defined.

(** X14. An accepted value stays readable until the field is written
    again or the object is reclaimed: whatever else happens in between
    (writes to other fields and other objects, rejected writes to this
    field, changes of the class default, caching, other objects being
    created or reclaimed), reading [o.f] returns the value written. *)
Theorem written_value_persists evs rt o f v evs' rt' :
  run evs boot = Some rt ->
  acceptable f v ->
  run (SetAttr o f v :: evs') rt = Some rt' ->
  Forall (fun ev => ev <> Reclaim o /\ ~ writes o f ev) evs' ->
  getattr (klass rt') o f = Ok (GotValue v).
Proof.
  intros Hrun Hok%field_validator_ok. cbn [run].
  destruct (step (SetAttr o f v) rt) as [rt1|] eqn:Hset; [|done].
  intros Hrun' Hquiet.
  assert (inv rt) as Hinv by (apply reachable_inv; by exists evs).
  assert (inv rt1) as Hinv1 by (by eapply inv_step).
  assert (inv rt') as Hinv' by (by eapply inv_run).
  rewrite getattr_wired by apply Hinv'.
  rewrite (store_run o f evs' rt1 rt') by done.
  simpl in Hset.
  destruct (bool_decide (o ∈ heap rt) && value_live v (heap rt)); [|done].
  injection Hset as <-. cbn [klass].
  destruct (setattr_accepted (klass rt) o f v) as (_ & _ & Hv);
    [apply Hinv|done|].
  by rewrite Hv.
Qed.

Lemma written_value_persists_witness :
  getattr (klass busy_rt) bob Email = Ok (GotValue (VStr "b@example.com")).
Proof.
  apply (written_value_persists demo demo_rt bob Email
           (VStr "b@example.com") busy busy_rt).
  - vm_compute. reflexivity.
  - exists "b@example.com"%string. vm_compute. tauto.
  - vm_compute. reflexivity.
  - repeat constructor; try discriminate;
      intros (v & [= <-] & Hv); discriminate Hv.
Defined.

Section Written.

(** Nothing but reclaiming the object removes an entry of a field store. *)
Lemma written_step o f ev rt rt' :
  inv rt -> step ev rt = Some rt' -> ev <> Reclaim o ->
  is_Some (values (descriptor f (klass rt)) !! o) ->
  is_Some (values (descriptor f (klass rt')) !! o).
Proof.
  intros Hinv Hstep Hne Hsome.
  destruct ev as [a|a g v|v|a|a]; simpl in Hstep.
  - destruct (fresh a (heap rt)); [|done]. by injection Hstep as <-.
  - destruct (bool_decide (a ∈ heap rt) && value_live v (heap rt)); [|done].
    injection Hstep as <-. cbn [klass].
    rewrite setattr_wired by apply Hinv.
    destruct (field_validator g v (field_name g)) as [[]|e]; [|done].
    cbn [snd]. destruct (decide (g = f)) as [->|Hgf].
    + rewrite descriptor_with_same. simpl.
      destruct (decide (a = o)) as [->|Hao].
      * rewrite lookup_insert_eq. by eexists.
      * by rewrite lookup_insert_ne.
    + by rewrite descriptor_with_other.
  - destruct (value_live v (heap rt)); [|done].
    injection Hstep as <-. by destruct f.
  - destruct (bool_decide (a ∈ heap rt)); [|done].
    injection Hstep as <-. by destruct f.
  - apply step_reclaim_inv in Hstep as ->. cbn [klass].
    rewrite values_reclaim_other; [done|congruence].
Qed.

Lemma written_run o f evs : forall rt rt',
  inv rt -> run evs rt = Some rt' ->
  Forall (fun ev => ev <> Reclaim o) evs ->
  is_Some (values (descriptor f (klass rt)) !! o) ->
  is_Some (values (descriptor f (klass rt')) !! o).
Proof.
  induction evs as [|ev evs IH]; intros rt rt' Hinv; simpl.
  - by intros [= <-].
  - destruct (step ev rt) as [rt1|] eqn:Hstep; [|done].
    intros Hrun [Hne Hall]%Forall_cons Hsome.
    apply (IH rt1 rt'); eauto using inv_step, written_step.
Qed.

End Written.

(** X16. A field that has been written cannot be unset: as long as the
    object is not reclaimed, whatever happens afterwards, reading the
    field returns a value the field accepts, so [username] and [email]
    never read [None] again and [last_login] never falls back to the class
    default again. *)
Theorem written_field_stays_written evs rt o f evs' rt' :
  run evs boot = Some rt ->
  is_Some (values (descriptor f (klass rt)) !! o) ->
  run evs' rt = Some rt' ->
  Forall (fun ev => ev <> Reclaim o) evs' ->
  exists v,
    values (descriptor f (klass rt')) !! o = Some v
    /\ getattr (klass rt') o f = Ok (GotValue v)
    /\ acceptable f v.
Proof.
  intros Hrun Hsome Hrun' Hquiet.
  assert (inv rt) as Hinv by (apply reachable_inv; by exists evs).
  assert (inv rt') as Hinv' by (by eapply inv_run).
  destruct (written_run o f evs' rt rt' Hinv Hrun' Hquiet Hsome) as [v Hv].
  exists v. split; [done|]. split.
  - rewrite getattr_wired by apply Hinv'. by rewrite Hv.
  - apply field_validator_ok. by destruct (inv_store _ Hinv' f o v Hv).
Qed.

Lemma written_field_stays_written_witness :
  exists v,
    values (descriptor Username (klass renamed_rt)) !! alice = Some v
    /\ getattr (klass renamed_rt) alice Username = Ok (GotValue v)
    /\ acceptable Username v.
Proof.
  apply (written_field_stays_written demo demo_rt alice Username
           renamed renamed_rt).
  - vm_compute. reflexivity.
  - exists (VStr "alice"). vm_compute. reflexivity.
  - vm_compute. reflexivity.
  - repeat constructor; discriminate.
Defined.
